(** * week1/server.py: the multi-threaded chat server

    A shallow embedding of [ChatServer] (src/week1/server.py) and proofs
    about its client registry, nickname generation, message routing,
    session cleanup and shutdown.

    Conventions.
    - A Python [str] is a Rocq [string] holding its UTF-8 bytes; [bytes]
      read from a socket are a [string] too.
    - A socket object is identified by a natural number.
    - [self.clients] is a Python dict that the code iterates, so it is an
      association list in insertion order; [self.nick_map] is only looked
      up, assigned and popped, so it is a [gmap].
    - Every function below is the effect of one call that runs without
      another thread stepping in between its locked sections; where a claim
      is about threads interleaving, the schedule is explicit (see
      [Module Schedule]). *)

From Stdlib Require Import Ascii String NArith.
From stdpp Require Import base gmap strings list pretty.

#[local] Set Warnings "-clear-no-such-hyp".

(** ** Text: lenient UTF-8 decoding, [str.strip], [str.split] *)

Module Text.

Local Open Scope N_scope.

Definition byte_in (lo hi : N) (a : ascii) : bool :=
  let x := N_of_ascii a in (lo <=? x) && (x <=? hi).

Definition byte_is (v : N) (a : ascii) : bool := N_of_ascii a =? v.

Definition cont (a : ascii) : bool := byte_in 0x80 0xBF a.

(** Well-formed UTF-8 sequences of length two, three and four. *)
Definition seq2 (a0 a1 : ascii) : bool := byte_in 0xC2 0xDF a0 && cont a1.

Definition seq3 (a0 a1 a2 : ascii) : bool :=
  (byte_is 0xE0 a0 && byte_in 0xA0 0xBF a1
   || byte_in 0xE1 0xEC a0 && cont a1
   || byte_is 0xED a0 && byte_in 0x80 0x9F a1
   || byte_in 0xEE 0xEF a0 && cont a1)
  && cont a2.

Definition seq4 (a0 a1 a2 a3 : ascii) : bool :=
  (byte_is 0xF0 a0 && byte_in 0x90 0xBF a1
   || byte_in 0xF1 0xF3 a0 && cont a1
   || byte_is 0xF4 a0 && byte_in 0x80 0x8F a1)
  && cont a2 && cont a3.

(** [data.decode('utf-8', errors='ignore')]: well-formed sequences are
    kept, every other byte is dropped. *)
Fixpoint decode_ignore (data : string) : string :=
  match data with
  | EmptyString => EmptyString
  | String a0 r0 =>
    if byte_in 0 0x7F a0 then String a0 (decode_ignore r0) else
    match r0 with
    | EmptyString => decode_ignore r0
    | String a1 r1 =>
      if seq2 a0 a1 then String a0 (String a1 (decode_ignore r1)) else
      match r1 with
      | EmptyString => decode_ignore r0
      | String a2 r2 =>
        if seq3 a0 a1 a2
        then String a0 (String a1 (String a2 (decode_ignore r2))) else
        match r2 with
        | EmptyString => decode_ignore r0
        | String a3 r3 =>
          if seq4 a0 a1 a2 a3
          then String a0 (String a1 (String a2 (String a3 (decode_ignore r3))))
          else decode_ignore r0
        end
      end
    end
  end.

(** The characters [str.strip()] removes (those with [str.isspace]), by
    their UTF-8 encodings: U+0009..000D, U+001C..0020; U+0085, U+00A0;
    U+1680, U+2000..200A, U+2028, U+2029, U+202F, U+205F, U+3000. *)
Definition ws1 (a0 : ascii) : bool := byte_in 0x09 0x0D a0 || byte_in 0x1C 0x20 a0.

Definition ws2 (a0 a1 : ascii) : bool :=
  byte_is 0xC2 a0 && (byte_is 0x85 a1 || byte_is 0xA0 a1).

Definition ws3 (a0 a1 a2 : ascii) : bool :=
  byte_is 0xE1 a0 && byte_is 0x9A a1 && byte_is 0x80 a2
  || byte_is 0xE2 a0 && byte_is 0x80 a1
     && (byte_in 0x80 0x8A a2 || byte_in 0xA8 0xA9 a2 || byte_is 0xAF a2)
  || byte_is 0xE2 a0 && byte_is 0x81 a1 && byte_is 0x9F a2
  || byte_is 0xE3 a0 && byte_is 0x80 a1 && byte_is 0x80 a2.

(** Drop leading whitespace; [back] reads the bytes of each character in
    reverse, for use on a reversed string. *)
Fixpoint strip_front (back : bool) (s : string) : string :=
  match s with
  | EmptyString => EmptyString
  | String a0 r0 =>
    if ws1 a0 then strip_front back r0 else
    match r0 with
    | EmptyString => s
    | String a1 r1 =>
      if (if back then ws2 a1 a0 else ws2 a0 a1) then strip_front back r1 else
      match r1 with
      | EmptyString => s
      | String a2 r2 =>
        if (if back then ws3 a2 a1 a0 else ws3 a0 a1 a2)
        then strip_front back r2 else s
      end
    end
  end.

Definition strip (s : string) : string :=
  String.rev (strip_front true (String.rev (strip_front false s))).

(** [s.partition(' ')] when a space occurs. *)
Fixpoint cut_space (s : string) : option (string * string) :=
  match s with
  | EmptyString => None
  | String a r =>
    if Ascii.eqb a " "%char then Some (EmptyString, r)
    else match cut_space r with
         | Some (h, t) => Some (String a h, t)
         | None => None
         end
  end.

(** [s.split(' ', maxsplit)]. *)
Fixpoint split_space (maxsplit : nat) (s : string) : list string :=
  match maxsplit with
  | O => [s]
  | S k =>
    match cut_space s with
    | None => [s]
    | Some (h, t) => h :: split_space k t
    end
  end.

(** The line feed [_send_line] appends. *)
Definition nl : string := String "010"%char EmptyString.

Definition startswith (s p : string) : bool := String.prefix p s.

(** Truth value of an [Optional[str]]: [None] and [''] are false. *)
Definition truthy (o : option string) : bool :=
  match o with
  | Some s => negb (String.eqb s "")
  | None => false
  end.

End Text.

(** ** Insertion-ordered dictionary ([self.clients]) *)

Module Dict.
Section Ops.
Context {K V : Type} `{EqDecision K}.

Definition t := list (K * V).

(** [d.get(k)] *)
Fixpoint get (d : t) (k : K) : option V :=
  match d with
  | [] => None
  | (k', v) :: r => if decide (k' = k) then Some v else get r k
  end.

(** [d[k] = v]: an existing key keeps its place, a new key goes last. *)
Fixpoint set (d : t) (k : K) (v : V) : t :=
  match d with
  | [] => [(k, v)]
  | (k', v') :: r =>
    if decide (k' = k) then (k, v) :: r else (k', v') :: set r k v
  end.

(** The dictionary left by [d.pop(k, None)]. *)
Fixpoint remove (d : t) (k : K) : t :=
  match d with
  | [] => []
  | (k', v') :: r =>
    if decide (k' = k) then remove r k else (k', v') :: remove r k
  end.

(** [list(d.keys())] *)
Definition keys (d : t) : list K := d.*1.
End Ops.
Global Arguments t : clear implicits.
End Dict.

(** ** Server state *)

Definition sock := nat.

(** What reaches the wire: [sendall] either hands the bytes over or raises
    [OSError], which [_send_line] swallows. *)
Inductive event :=
| Delivered (s : sock) (data : string)
| Dropped (s : sock) (data : string).

Global Instance event_eq_dec : EqDecision event.
Proof. solve_decision. Defined.

Record server := Server {
  clients : Dict.t sock string;      (* self.clients  {sock: nickname} *)
  nick_map : gmap string sock;       (* self.nick_map {nickname: sock} *)
  stop_event : bool;                 (* self.stop_event *)
  listener_closed : bool;            (* self.server_sock has been closed *)
  closed : gset sock;                (* client sockets that have been closed *)
  broken : gset sock;                (* sockets whose peer is gone: writes fail *)
  wire : list event;                 (* writes attempted so far, oldest first *)
  console : list string              (* lines printed by the server *)
}.

(** [ChatServer.__init__] *)
Definition init : server :=
  Server [] ∅ false false ∅ ∅ [] [].

Definition with_registry (σ : server) (c : Dict.t sock string) (m : gmap string sock) :=
  Server c m (stop_event σ) (listener_closed σ) (closed σ) (broken σ) (wire σ) (console σ).

Definition add_wire (σ : server) (evs : list event) : server :=
  Server (clients σ) (nick_map σ) (stop_event σ) (listener_closed σ) (closed σ)
         (broken σ) (wire σ ++ evs) (console σ).

Definition emit (σ : server) (e : event) : server := add_wire σ [e].

Definition print (σ : server) (line : string) : server :=
  Server (clients σ) (nick_map σ) (stop_event σ) (listener_closed σ) (closed σ)
         (broken σ) (wire σ) (console σ ++ [line]).

(** [sock.close()]: closing a closed socket changes nothing. *)
Definition close (σ : server) (s : sock) : server :=
  Server (clients σ) (nick_map σ) (stop_event σ) (listener_closed σ)
         ({[s]} ∪ closed σ) (broken σ) (wire σ) (console σ).

Definition writable (σ : server) (s : sock) : bool :=
  bool_decide (s ∉ closed σ) && bool_decide (s ∉ broken σ).

(** The event a write of [line] to [s] leaves in state [σ]. *)
Definition sent (σ : server) (s : sock) (line : string) : event :=
  if writable σ s then Delivered s (line +:+ Text.nl)
  else Dropped s (line +:+ Text.nl).

(** [_send_line] *)
Definition send_line (σ : server) (s : sock) (line : string) : server :=
  emit σ (sent σ s line).

(** ** Client registry *)

(** [f'{base}{i}'] *)
Definition cand (base : string) (i : nat) : string := base +:+ pretty i.

(** The [while True] loop of [_make_unique_nickname], from suffix [i]. *)
Fixpoint suffix_search (fuel : nat) (taken : gmap string sock) (base : string)
    (i : nat) : option string :=
  match fuel with
  | O => None
  | S fuel' =>
    match taken !! cand base i with
    | None => Some (cand base i)
    | Some _ => suffix_search fuel' taken base (S i)
    end
  end.

Definition make_unique_nickname_fuel (fuel : nat) (taken : gmap string sock)
    (base : string) : option string :=
  match taken !! base with
  | None => Some base
  | Some _ => suffix_search fuel taken base 2
  end.

(** [_make_unique_nickname]: one more iteration than there are taken names
    is always enough ([make_unique_nickname_fuel_enough]). *)
Definition make_unique_nickname (σ : server) (base : string) : string :=
  default base
    (make_unique_nickname_fuel (S (size (nick_map σ))) (nick_map σ) base).

(** [_register_client] *)
Definition register_client (σ : server) (s : sock) (nickname : string) : server :=
  print (with_registry σ (Dict.set (clients σ) s nickname)
                         (<[nickname := s]> (nick_map σ)))
        ("[*] 접속: " +:+ nickname).

(** [_get_nickname] *)
Definition get_nickname (σ : server) (s : sock) : option string :=
  Dict.get (clients σ) s.

(** [_broadcast] *)
Definition broadcast (σ : server) (line : string) : server :=
  foldl (λ τ s, send_line τ s line) σ (Dict.keys (clients σ)).

Definition leave_line (nickname : string) : string :=
  "[" +:+ nickname +:+ "]님이 퇴장하셨습니다.".

(** [_remove_client] *)
Definition remove_client (σ : server) (s : sock) : server :=
  let nickname := Dict.get (clients σ) s in
  let σ1 :=
    with_registry σ (Dict.remove (clients σ) s)
      (if Text.truthy nickname
       then delete (default "" nickname) (nick_map σ) else nick_map σ) in
  let σ2 :=
    if Text.truthy nickname
    then broadcast (print σ1 ("[*] 종료: " +:+ default "" nickname))
                   (leave_line (default "" nickname))
    else σ1 in
  close σ2 s.

(** ** Message router *)

Definition usage_line : string := "형식: /w 대상닉 메시지".

Definition not_found_line (target_nick : string) : string :=
  "대상 [" +:+ target_nick +:+ "]을(를) 찾을 수 없습니다.".

Definition whisper_line (sender_nick message : string) : string :=
  "(귓속말) " +:+ sender_nick +:+ "> " +:+ message.

Definition whisper_sent_line (sender_nick target_nick message : string) : string :=
  "(귓속말 전송) " +:+ sender_nick +:+ " -> " +:+ target_nick +:+ ": " +:+ message.

(** [self._get_nickname(sender_sock) or '알수없음'] *)
Definition sender_or_unknown (σ : server) (s : sock) : string :=
  let nick := get_nickname σ s in
  if Text.truthy nick then default "" nick else "알수없음".

(** [_handle_whisper] *)
Definition handle_whisper (σ : server) (sender_sock : sock) (raw_cmd : string) : server :=
  match Text.split_space 2 raw_cmd with
  | [_; target_nick; message] =>
    if String.eqb target_nick "" || String.eqb message ""
    then send_line σ sender_sock usage_line
    else
      let target_sock := nick_map σ !! target_nick in
      let sender_nick := sender_or_unknown σ sender_sock in
      match target_sock with
      | None => send_line σ sender_sock (not_found_line target_nick)
      | Some t =>
        let σ1 := send_line σ t (whisper_line sender_nick message) in
        send_line σ1 sender_sock (whisper_sent_line sender_nick target_nick message)
      end
  | _ => send_line σ sender_sock usage_line
  end.

(** ** Shutdown *)

Definition shutdown_notice : string := "서버가 종료됩니다.".

(** [_shutdown] *)
Definition shutdown (σ : server) : server :=
  let σ1 :=
    Server (clients σ) (nick_map σ) true (listener_closed σ) (closed σ)
           (broken σ) (wire σ) (console σ) in
  let σ2 :=
    foldl (λ τ s, close (send_line τ s shutdown_notice) s) σ1
          (Dict.keys (clients σ1)) in
  Server (clients σ2) (nick_map σ2) (stop_event σ2) true (closed σ2)
         (broken σ2) (wire σ2) (console σ2).

(** [admin_console], fed the lines [input()] returns; the end of the list
    is [EOFError]. *)
Fixpoint admin_console (σ : server) (cmds : list string) : server :=
  match cmds with
  | [] => σ
  | cmd :: rest =>
    if String.eqb (Text.strip cmd) "/종료"
    then shutdown (print σ "[*] 서버 종료 명령 수신")
    else admin_console σ rest
  end.

(** ** Connection handler *)

(** What [client_sock.recv(1024)] does: return bytes (none when the peer
    has closed), raise [ConnectionResetError], or raise something else. *)
Inductive recv_result :=
| Recv (data : string)
| RaiseReset
| RaiseOther.

(** How one run of [_handle_client] over a script of reads stands. *)
Inductive outcome :=
| HandshakeAborted   (* nickname is None: close and return *)
| PeerClosed         (* zero-length read in the loop *)
| Quit               (* the quit command *)
| Unregistered       (* sender is None on a chat line *)
| Reset              (* ConnectionResetError caught in the loop *)
| Raised             (* another exception leaves the handler *)
| Blocked.           (* waiting in recv: the script is used up *)

Definition prompt_line : string := "닉네임을 입력해주세요:".

Definition confirm_line (nickname : string) : string :=
  "닉네임이 [" +:+ nickname +:+ "]로 설정되었습니다.".

Definition join_line (nickname : string) : string :=
  "[" +:+ nickname +:+ "]님이 입장하셨습니다.".

Definition help_line_1 : string := "안내: 일반 메시지는 모두에게 전송됩니다.".
Definition help_line_2 : string := "안내: 종료는 /종료, 귓속말은 /w 대상닉 메시지".
Definition bye_line : string := "연결을 종료합니다.".
Definition quit_command : string := "/종료".
Definition default_base : string := "user".

(** The base name the handshake derives from the bytes it read. *)
Definition base_of (data : string) : string :=
  let raw := Text.strip (Text.decode_ignore data) in
  if String.eqb raw "" then default_base else raw.

Inductive handshake_result :=
| Nick (nickname : string)   (* return nickname *)
| NoNick                     (* return None *)
| HsRaised.                  (* the read raised something else *)

(** [_handshake_for_nickname], after the prompt is sent, given what the
    read did. *)
Definition handshake_after_prompt (σ : server) (s : sock) (r : recv_result)
    : server * handshake_result :=
  match r with
  | RaiseReset => (σ, NoNick)
  | RaiseOther => (σ, HsRaised)
  | Recv data =>
    if String.eqb data "" then (σ, NoNick)
    else
      let nickname := make_unique_nickname σ (base_of data) in
      (send_line σ s (confirm_line nickname), Nick nickname)
  end.

(** [_handshake_for_nickname] *)
Definition handshake_for_nickname (σ : server) (s : sock) (r : recv_result)
    : server * handshake_result :=
  handshake_after_prompt (send_line σ s prompt_line) s r.

(** Lines 57-61 of [_handle_client]: register, announce, send the help. *)
Definition enter_session (σ : server) (s : sock) (nickname : string) : server :=
  let σ1 := register_client σ s nickname in
  let σ2 := broadcast σ1 (join_line nickname) in
  let σ3 := send_line σ2 s help_line_1 in
  send_line σ3 s help_line_2.

(** The [while True] loop of [_handle_client]. *)
Fixpoint session_loop (σ : server) (s : sock) (reads : list recv_result)
    : server * outcome :=
  match reads with
  | [] => (σ, Blocked)
  | RaiseReset :: _ => (σ, Reset)
  | RaiseOther :: _ => (σ, Raised)
  | Recv data :: rest =>
    if String.eqb data "" then (σ, PeerClosed)
    else
      let msg := Text.strip (Text.decode_ignore data) in
      if String.eqb msg "" then session_loop σ s rest
      else if String.eqb msg quit_command then (send_line σ s bye_line, Quit)
      else if Text.startswith msg "/w " then
        session_loop (handle_whisper σ s msg) s rest
      else
        match get_nickname σ s with
        | None => (σ, Unregistered)
        | Some sender => session_loop (broadcast σ (sender +:+ "> " +:+ msg)) s rest
        end
  end.

(** The [try] block of [_handle_client]. *)
Definition handle_client_try (σ : server) (s : sock) (reads : list recv_result)
    : server * outcome :=
  match reads with
  | [] => (send_line σ s prompt_line, Blocked)
  | r :: rest =>
    match handshake_for_nickname σ s r with
    | (σ1, NoNick) => (close σ1 s, HandshakeAborted)
    | (σ1, HsRaised) => (σ1, Raised)
    | (σ1, Nick nickname) => session_loop (enter_session σ1 s nickname) s rest
    end
  end.

(** [_handle_client]: the [finally] clause runs on every way out of the
    [try] block. *)
Definition handle_client (σ : server) (s : sock) (reads : list recv_result)
    : server * outcome :=
  let '(σ1, o) := handle_client_try σ s reads in
  match o with
  | Blocked => (σ1, Blocked)
  | _ => (remove_client σ1 s, o)
  end.

(** [lookupConnection]: [self.nick_map.get(nickname)] *)
Definition lookup_connection (σ : server) (nickname : string) : option sock :=
  nick_map σ !! nickname.

(** The registry is a bijection between registered connections and
    registered nicknames. *)
Definition nick_of_conn_ok (σ : server) : Prop :=
  ∀ c n, get_nickname σ c = Some n → lookup_connection σ n = Some c.

Definition conn_of_nick_ok (σ : server) : Prop :=
  ∀ n c, lookup_connection σ n = Some c → get_nickname σ c = Some n.

Definition bijective (σ : server) : Prop :=
  nick_of_conn_ok σ ∧ conn_of_nick_ok σ.

(** [τ] is [σ] after some writes, and nothing else. *)
Definition wrote (σ τ : server) : Prop := ∃ evs, τ = add_wire σ evs.

(** A chat line: what the loop of [_handle_client] hands to [_broadcast]
    for the bytes [data], if it takes them for a chat message. *)
Definition chat_message (data : string) : option string :=
  let msg := Text.strip (Text.decode_ignore data) in
  if String.eqb data "" || String.eqb msg "" || String.eqb msg quit_command
     || Text.startswith msg "/w "
  then None else Some msg.


(** No registered nickname is the empty string. *)
Definition nonempty_nicks (σ : server) : Prop :=
  ∀ c n, get_nickname σ c = Some n → n ≠ "".

(** Two sessions; the peer of the first is gone. *)
Definition two_sessions : server :=
  Server [(1, "alice"); (2, "bob")] (<["bob" := 2]> {["alice" := 1]})
         false false ∅ {[1]} [] [].

(** ** Schedules of registry calls

    The registry lock is held inside [_make_unique_nickname],
    [_register_client] and [_remove_client], and released between them. Each
    handler keeps the name it generated in its local variable [nickname]
    until it registers. A schedule lists the locked sections in the order
    the lock was granted. *)

Module Schedule.

Inductive call :=
| Generate (c : sock) (base : string)  (* c: nickname = _make_unique_nickname(base) *)
| Register (c : sock)                  (* c: _register_client(c, nickname) *)
| Unregister (c : sock).               (* c: _remove_client(c) *)

Record config := Config {
  srv : server;
  local : gmap sock string   (* the handlers' local [nickname] *)
}.

Definition start : config := Config init ∅.

Definition step (κ : config) (a : call) : config :=
  match a with
  | Generate c base =>
    Config (srv κ) (<[c := make_unique_nickname (srv κ) base]> (local κ))
  | Register c =>
    match local κ !! c with
    | Some nickname => Config (register_client (srv κ) c nickname) (local κ)
    | None => κ
    end
  | Unregister c => Config (remove_client (srv κ) c) (local κ)
  end.

Definition run (κ : config) (calls : list call) : config := foldl step κ calls.

(** Every [Register] is given the name its handler generated, and nobody
    has registered that name in between. *)
Fixpoint fresh_names (κ : config) (calls : list call) : bool :=
  match calls with
  | [] => true
  | a :: rest =>
    match a with
    | Register c =>
      match local κ !! c with
      | Some nickname => bool_decide (nick_map (srv κ) !! nickname = None)
      | None => false
      end
    | _ => true
    end && fresh_names (step κ a) rest
  end.

(** Moreover every [Register] is for a connection that is not registered
    at that time, under a name that is not the empty string: how
    [_handle_client] uses the registry. *)
Fixpoint once_nonempty (κ : config) (calls : list call) : bool :=
  match calls with
  | [] => true
  | a :: rest =>
    match a with
    | Register c =>
      match local κ !! c with
      | Some nickname =>
        negb (String.eqb nickname "")
        && bool_decide (get_nickname (srv κ) c = None)
      | None => false
      end
    | _ => true
    end && once_nonempty (step κ a) rest
  end.

(** Two registered connections never carry one nickname. *)
Definition distinct_nicknames (σ : server) : Prop :=
  ∀ c1 c2 n, get_nickname σ c1 = Some n → get_nickname σ c2 = Some n → c1 = c2.


(** Two handshakes ask for [alice]; both generate before either
    registers. *)
Definition race : list call :=
  [Generate 1 "alice"; Generate 2 "alice"; Register 1; Register 2].

(** One after the other. *)
Definition in_turn : list call :=
  [Generate 1 "alice"; Register 1; Generate 2 "alice"; Register 2; Unregister 1].

(** One connection registered twice without a removal in between. *)
Definition twice : list call :=
  [Generate 1 "alice"; Register 1; Generate 1 "bob"; Register 1].

(** A connection registered under the empty name, then removed. *)
Definition blank : list call :=
  [Generate 1 ""; Register 1; Unregister 1].

End Schedule.

(** ** Sessions that join and leave in one locked step *)

(** [τ] is [σ] after writes of lines, each with the outcome the sockets of
    [σ] give it. *)
Definition wrote_lines (σ τ : server) : Prop :=
  ∃ evs, τ = add_wire σ evs ∧ Forall (λ e, ∃ t line, e = sent σ t line) evs.

Module Sessions.
Import Schedule.

Inductive op :=
| Join (c : sock) (base : string)   (* generate and register, nothing in between *)
| Leave (c : sock).                 (* _remove_client *)

Definition calls_of (o : op) : list call :=
  match o with
  | Join c base => [Generate c base; Register c]
  | Leave c => [Unregister c]
  end.

Definition expand (ops : list op) : list call := concat (calls_of <$> ops).

(** Connections [1 .. k] join in turn, all asking for [base]. *)
Definition same_base (base : string) (k : nat) : list op :=
  (λ c, Join c base) <$> seq 1 k.

(** The name the [c]-th of them is given. *)
Definition nth_name (base : string) (c : nat) : string :=
  if decide (c = 1) then base else cand base c.

End Sessions.

(** * Proofs *)

Example strip_ex : Text.strip ("  alice" +:+ Text.nl) = "alice".
Proof. reflexivity. Qed.

Example strip_kr : Text.strip (Text.decode_ignore " /종료 ") = "/종료".
Proof. vm_compute. reflexivity. Qed.

Example split_ex : Text.split_space 2 "/w alice hi there" = ["/w"; "alice"; "hi there"].
Proof. reflexivity. Qed.

Example split_ex2 : Text.split_space 2 "/w  hi" = ["/w"; ""; "hi"].
Proof. reflexivity. Qed.

Example pretty_ex : "alice" +:+ pretty 12%nat = "alice12".
Proof. vm_compute. reflexivity. Qed.

(** ** The scenario of the chat protocol, run on the model *)

Example scenario_alice :
  let σA := (handle_client_try init 1 [Recv "alice"]).1 in
  let σB := (handle_client_try σA 2 [Recv "alice"]).1 in
  let σC := (session_loop σB 1 [Recv "hello"]).1 in
  let σD := (session_loop σC 2 [Recv "/w alice hi there"]).1 in
  let σE := remove_client (session_loop σD 1 [Recv "/종료"]).1 1 in
  clients σB = [(1, "alice"); (2, "alice2")]
  ∧ drop (length (wire σB)) (wire σD)
    = [Delivered 1 ("alice> hello" +:+ Text.nl);
       Delivered 2 ("alice> hello" +:+ Text.nl);
       Delivered 1 ("(귓속말) alice2> hi there" +:+ Text.nl);
       Delivered 2 ("(귓속말 전송) alice2 -> alice: hi there" +:+ Text.nl)]
  ∧ drop (length (wire σD)) (wire σE)
    = [Delivered 1 ("연결을 종료합니다." +:+ Text.nl);
       Delivered 2 ("[alice]님이 퇴장하셨습니다." +:+ Text.nl)]
  ∧ clients σE = [(2, "alice2")].
Proof. vm_compute. done. Qed.

(** ** The dictionary *)

Section DictFacts.
Context {K V : Type} `{EqDecision K}.
Implicit Types (d : Dict.t K V) (k : K) (v : V).

Lemma dict_get_set d k v k' :
  Dict.get (Dict.set d k v) k' = if decide (k = k') then Some v else Dict.get d k'.
Proof.
  induction d as [|[k0 v0] d IH]; simpl.
  - by destruct (decide (k = k')).
  - destruct (decide (k0 = k)) as [->|Hne]; simpl.
    + by destruct (decide (k = k')).
    + rewrite IH. destruct (decide (k0 = k')) as [->|]; [|done].
      by rewrite decide_False.
Qed.

Lemma dict_get_remove d k k' :
  Dict.get (Dict.remove d k) k' = if decide (k = k') then None else Dict.get d k'.
Proof.
  induction d as [|[k0 v0] d IH]; simpl.
  - by destruct (decide (k = k')).
  - destruct (decide (k0 = k)) as [->|Hne]; simpl.
    + rewrite IH. destruct (decide (k = k')); [done|done].
    + rewrite IH. destruct (decide (k0 = k')) as [->|]; [|done].
      by rewrite decide_False.
Qed.

Lemma dict_get_keys d k : k ∈ Dict.keys d ↔ is_Some (Dict.get d k).
Proof.
  unfold Dict.keys. induction d as [|[k0 v0] d IH]; simpl.
  - split; [by intros ?%elem_of_nil | by intros [? ?]].
  - rewrite elem_of_cons, IH. destruct (decide (k0 = k)) as [->|Hne].
    + split; [by eauto | by left].
    + split; [intros [?|?]; [congruence|done] | by right].
Qed.

Lemma dict_remove_absent d k : Dict.get d k = None → Dict.remove d k = d.
Proof.
  induction d as [|[k0 v0] d IH]; simpl; [done|].
  destruct (decide (k0 = k)); [done|]. intros ?. by rewrite IH.
Qed.

Lemma dict_keys_remove d k : k ∉ Dict.keys (Dict.remove d k).
Proof.
  rewrite dict_get_keys, dict_get_remove, decide_True by done. by intros [? ?].
Qed.
End DictFacts.

(** ** Nickname generation *)

Section Generation.
Implicit Types (taken : gmap string sock) (base : string).

Lemma cand_inj base : Inj (=) (=) (cand base).
Proof. intros i j Hij. unfold cand in Hij. by simplify_eq. Qed.

(** A search that stops returns the first free candidate at or after [i]. *)
Lemma suffix_search_some fuel taken base i r :
  suffix_search fuel taken base i = Some r →
  ∃ k, r = cand base k ∧ i ≤ k < i + fuel ∧ taken !! r = None
       ∧ ∀ j, i ≤ j < k → is_Some (taken !! cand base j).
Proof.
  revert i. induction fuel as [|fuel IH]; intros i; simpl; [done|].
  destruct (taken !! cand base i) eqn:Hi.
  - intros (k & -> & Hk & Hfree & Hbelow)%IH. exists k.
    split; [done|]. split; [lia|]. split; [done|].
    intros j Hj. destruct (decide (j = i)) as [->|]; [by rewrite Hi; eauto|].
    apply Hbelow. lia.
  - intros [= <-]. exists i.
    split; [done|]. split; [lia|]. split; [done|]. intros j ?; lia.
Qed.

(** A search that runs out of fuel has seen only taken candidates. *)
Lemma suffix_search_none fuel taken base i :
  suffix_search fuel taken base i = None →
  ∀ j, i ≤ j < i + fuel → is_Some (taken !! cand base j).
Proof.
  revert i. induction fuel as [|fuel IH]; intros i; simpl; [intros _ j ?; lia|].
  destruct (taken !! cand base i) eqn:Hi; [|done].
  intros Hnone j Hj. destruct (decide (j = i)) as [->|]; [by rewrite Hi; eauto|].
  apply (IH _ Hnone). lia.
Qed.

(** No run of [size taken + 1] consecutive candidates is all taken. *)
Lemma candidates_not_all_taken taken base i :
  ¬ ∀ j, i ≤ j < i + S (size taken) → is_Some (taken !! cand base j).
Proof.
  intros Hall.
  set (l := cand base <$> seq i (S (size taken))).
  assert (NoDup l) as Hnd.
  { apply (NoDup_fmap_2 _), NoDup_seq. }
  assert (list_to_set l ⊆ dom taken) as Hsub.
  { intros x [j [-> Hj%elem_of_seq]]%elem_of_list_to_set%list_elem_of_fmap.
    apply elem_of_dom, Hall. lia. }
  apply subseteq_size in Hsub.
  rewrite size_list_to_set, size_dom in Hsub by done.
  unfold l in Hsub. rewrite length_fmap, length_seq in Hsub. lia.
Qed.

Lemma suffix_search_more_fuel fuel fuel' taken base i r :
  fuel ≤ fuel' →
  suffix_search fuel taken base i = Some r →
  suffix_search fuel' taken base i = Some r.
Proof.
  revert fuel' i. induction fuel as [|fuel IH]; intros fuel' i Hle; simpl; [done|].
  destruct fuel' as [|fuel']; [lia|]. simpl.
  destruct (taken !! cand base i); [|done]. apply IH. lia.
Qed.

Lemma suffix_search_enough taken base i :
  is_Some (suffix_search (S (size taken)) taken base i).
Proof.
  destruct (suffix_search _ _ _ _) eqn:Hs; [by eauto|].
  destruct (candidates_not_all_taken taken base i).
  by apply suffix_search_none.
Qed.

(** The search looks at [taken] only through its set of keys. *)
Lemma suffix_search_dom fuel taken taken' base i :
  dom taken = dom taken' →
  suffix_search fuel taken base i = suffix_search fuel taken' base i.
Proof.
  intros Hdom. revert i. induction fuel as [|fuel IH]; intros i; simpl; [done|].
  rewrite IH.
  destruct (taken !! cand base i) eqn:H1,
           (taken' !! cand base i) eqn:H2; try done.
  - apply not_elem_of_dom in H2. rewrite <-Hdom in H2.
    apply not_elem_of_dom in H2. congruence.
  - apply not_elem_of_dom in H1. rewrite Hdom in H1.
    apply not_elem_of_dom in H1. congruence.
Qed.
End Generation.

Lemma make_unique_nickname_fuel_enough taken base fuel :
  size taken < fuel →
  make_unique_nickname_fuel fuel taken base
  = make_unique_nickname_fuel (S (size taken)) taken base
  ∧ is_Some (make_unique_nickname_fuel fuel taken base).
Proof.
  intros Hfuel. unfold make_unique_nickname_fuel.
  destruct (taken !! base); [|by eauto].
  destruct (suffix_search_enough taken base 2) as [r Hr].
  rewrite Hr, (suffix_search_more_fuel (S (size taken)) fuel _ _ _ r) by (done || lia).
  by eauto.
Qed.

(** C10. [_make_unique_nickname] terminates for every base and every
    (finite) [nick_map]: run with any number of iterations above the number
    of taken nicknames, the loop stops and returns, and what it returns is
    the value of [make_unique_nickname]; no larger bound changes it. *)
Theorem make_unique_nickname_terminates (σ : server) (base : string) (extra : nat) :
  make_unique_nickname_fuel (S (size (nick_map σ)) + extra) (nick_map σ) base
  = Some (make_unique_nickname σ base).
Proof.
  destruct (make_unique_nickname_fuel_enough (nick_map σ) base
              (S (size (nick_map σ)) + extra)) as [Heq [r Hr]]; [lia|].
  unfold make_unique_nickname. rewrite <-Heq, Hr. done.
Qed.

Lemma make_unique_nickname_cases (σ : server) (base : string) :
  match nick_map σ !! base with
  | None => make_unique_nickname σ base = base
  | Some _ =>
    ∃ k, 2 ≤ k
         ∧ make_unique_nickname σ base = cand base k
         ∧ nick_map σ !! cand base k = None
         ∧ ∀ j, 2 ≤ j < k → is_Some (nick_map σ !! cand base j)
  end.
Proof.
  unfold make_unique_nickname, make_unique_nickname_fuel.
  destruct (nick_map σ !! base) eqn:Hbase; [|done].
  destruct (suffix_search_enough (nick_map σ) base 2) as [r Hr].
  rewrite Hr. simpl.
  apply suffix_search_some in Hr as (k & -> & Hk & Hfree & Hbelow).
  exists k. split; [lia|]. split; [done|]. split; [done|]. exact Hbelow.
Qed.

Lemma make_unique_nickname_dom (σ σ' : server) (base : string) :
  dom (nick_map σ') = dom (nick_map σ) →
  make_unique_nickname σ' base = make_unique_nickname σ base.
Proof.
  intros Hdom. unfold make_unique_nickname, make_unique_nickname_fuel.
  rewrite <-!size_dom, Hdom, (suffix_search_dom _ _ _ _ _ Hdom).
  destruct (nick_map σ' !! base) eqn:H1, (nick_map σ !! base) eqn:H2; try done.
  - apply not_elem_of_dom in H2. rewrite <-Hdom in H2.
    apply not_elem_of_dom in H2. congruence.
  - apply not_elem_of_dom in H1. rewrite Hdom in H1.
    apply not_elem_of_dom in H1. congruence.
Qed.

(** C4. [_make_unique_nickname] returns [base] when [base] is not taken;
    otherwise it returns [base] followed by the decimal form of the least
    [k >= 2] for which that name is not taken. The result depends only on
    [base] and on the set of taken nicknames. *)
Theorem make_unique_nickname_spec (σ : server) (base : string) :
  match nick_map σ !! base with
  | None => make_unique_nickname σ base = base
  | Some _ =>
    ∃ k, 2 ≤ k
         ∧ make_unique_nickname σ base = base +:+ pretty k
         ∧ nick_map σ !! (base +:+ pretty k) = None
         ∧ ∀ j, 2 ≤ j < k → is_Some (nick_map σ !! (base +:+ pretty j))
  end
  ∧ ∀ σ', dom (nick_map σ') = dom (nick_map σ) →
          make_unique_nickname σ' base = make_unique_nickname σ base.
Proof.
  split; [apply make_unique_nickname_cases|].
  intros σ'. apply make_unique_nickname_dom.
Qed.

Lemma make_unique_nickname_free (σ : server) (base : string) :
  nick_map σ !! make_unique_nickname σ base = None.
Proof.
  pose proof (make_unique_nickname_cases σ base) as H.
  destruct (nick_map σ !! base) eqn:Hb.
  - destruct H as (k & _ & -> & Hfree & _). done.
  - by rewrite H.
Qed.

Lemma make_unique_nickname_nonempty (σ : server) (base : string) :
  base ≠ "" → make_unique_nickname σ base ≠ "".
Proof.
  intros Hne. pose proof (make_unique_nickname_cases σ base) as H.
  destruct (nick_map σ !! base).
  - destruct H as (k & _ & -> & _). by destruct base.
  - by rewrite H.
Qed.

(** ** Writes *)

(** Every state is its eight fields. *)
Lemma server_eta (σ : server) :
  σ = Server (clients σ) (nick_map σ) (stop_event σ) (listener_closed σ)
             (closed σ) (broken σ) (wire σ) (console σ).
Proof. by destruct σ. Qed.

Lemma add_wire_nil σ : add_wire σ [] = σ.
Proof. destruct σ. unfold add_wire. simpl. by rewrite app_nil_r. Qed.

Lemma add_wire_add_wire σ evs1 evs2 :
  add_wire (add_wire σ evs1) evs2 = add_wire σ (evs1 ++ evs2).
Proof. unfold add_wire. simpl. by rewrite app_assoc. Qed.

Lemma send_line_add_wire σ s line : send_line σ s line = add_wire σ [sent σ s line].
Proof. done. Qed.

(** Whether a write gets through depends on the sockets only. *)
Lemma sent_ext σ τ s line :
  closed τ = closed σ → broken τ = broken σ → sent τ s line = sent σ s line.
Proof. intros Hc Hb. unfold sent, writable. by rewrite Hc, Hb. Qed.

Lemma sent_add_wire σ evs s line : sent (add_wire σ evs) s line = sent σ s line.
Proof. done. Qed.

Lemma foldl_send_line (l : list sock) σ line :
  foldl (λ τ s, send_line τ s line) σ l = add_wire σ ((λ s, sent σ s line) <$> l).
Proof.
  revert σ. induction l as [|a l IH]; intros σ; simpl.
  - by rewrite add_wire_nil.
  - rewrite IH, send_line_add_wire, add_wire_add_wire. done.
Qed.

Lemma broadcast_add_wire σ line :
  broadcast σ line
  = add_wire σ ((λ s, sent σ s line) <$> Dict.keys (clients σ)).
Proof. apply foldl_send_line. Qed.

Lemma wrote_refl σ : wrote σ σ.
Proof. exists []. by rewrite add_wire_nil. Qed.

Lemma wrote_trans σ1 σ2 σ3 : wrote σ1 σ2 → wrote σ2 σ3 → wrote σ1 σ3.
Proof. intros [e1 ->] [e2 ->]. exists (e1 ++ e2). apply add_wire_add_wire. Qed.

Lemma wrote_send_line σ s line : wrote σ (send_line σ s line).
Proof. by eexists. Qed.

Lemma wrote_broadcast σ line : wrote σ (broadcast σ line).
Proof. eexists. apply broadcast_add_wire. Qed.

Lemma wrote_handle_whisper σ s raw : wrote σ (handle_whisper σ s raw).
Proof.
  unfold handle_whisper.
  destruct (Text.split_space 2 raw) as [|p0 [|p1 [|p2 [|p3 ps]]]];
    try apply wrote_send_line.
  destruct (_ || _); [apply wrote_send_line|].
  destruct (nick_map σ !! p1); [|apply wrote_send_line].
  eapply wrote_trans; apply wrote_send_line.
Qed.

Lemma wrote_session_loop reads σ s : wrote σ (session_loop σ s reads).1.
Proof.
  revert σ. induction reads as [|r reads IH]; intros σ; simpl; [apply wrote_refl|].
  destruct r as [data| |]; [|apply wrote_refl..].
  destruct (String.eqb data ""); [apply wrote_refl|].
  destruct (String.eqb _ ""); [apply IH|].
  destruct (String.eqb _ quit_command); [apply wrote_send_line|].
  destruct (Text.startswith _ _).
  - eapply wrote_trans; [apply wrote_handle_whisper|apply IH].
  - destruct (get_nickname σ s); [|apply wrote_refl].
    eapply wrote_trans; [apply wrote_broadcast|apply IH].
Qed.

(** ** The session loop, one read at a time *)

Lemma session_loop_chat σ s data rest msg :
  chat_message data = Some msg →
  session_loop σ s (Recv data :: rest)
  = match get_nickname σ s with
    | Some sender => session_loop (broadcast σ (sender +:+ "> " +:+ msg)) s rest
    | None => (σ, Unregistered)
    end.
Proof.
  unfold chat_message. simpl.
  destruct (String.eqb data ""); [done|].
  destruct (String.eqb _ ""); [done|].
  destruct (String.eqb _ quit_command); [done|].
  destruct (Text.startswith _ _); [done|]. simpl. by intros [= ->].
Qed.


(** ** Broadcast *)

(** C5. A broadcast of [line] writes [line] to the connections of the
    snapshot [list(self.clients.keys())] taken at the call, in that order,
    each exactly once, and to no other connection; a write that fails is
    dropped and the following connections are still written; the registry
    and the sockets are as before. For a chat message of a registered
    sender the line is [sender> msg], and the sender's loop goes on to its
    next read. *)
Theorem broadcast_snapshot (σ : server) (line : string) :
  let snapshot := Dict.keys (clients σ) in
  broadcast σ line = add_wire σ ((λ t, sent σ t line) <$> snapshot)
  ∧ (∀ t, t ∈ snapshot → writable σ t = true →
          Delivered t (line +:+ Text.nl) ∈ wire (broadcast σ line))
  ∧ (∀ t data, t ∉ snapshot → Delivered t data ∉ wire σ →
               Delivered t data ∉ wire (broadcast σ line))
  ∧ (∀ s data rest sender msg,
       chat_message data = Some msg → get_nickname σ s = Some sender →
       session_loop σ s (Recv data :: rest)
       = session_loop
           (add_wire σ ((λ t, sent σ t (sender +:+ "> " +:+ msg)) <$> snapshot))
           s rest).
Proof.
  intros snapshot. split; [apply broadcast_add_wire|]. split; [|split].
  - intros t Ht Hw. rewrite broadcast_add_wire. simpl.
    apply elem_of_app. right. apply list_elem_of_fmap. exists t. split; [|done].
    unfold sent. by rewrite Hw.
  - intros t data Ht Hold. rewrite broadcast_add_wire. simpl.
    intros [?|(t' & Heq & Ht')%list_elem_of_fmap]%elem_of_app; [done|].
    unfold sent in Heq. destruct (writable σ t'); [|done].
    injection Heq as -> _. done.
  - intros s data rest sender msg Hchat Hs.
    by rewrite (session_loop_chat _ _ _ _ _ Hchat), Hs, broadcast_add_wire.
Qed.

(** ** Whisper *)

Lemma handle_whisper_parsed σ s raw w target message :
  Text.split_space 2 raw = [w; target; message] →
  target ≠ "" → message ≠ "" →
  handle_whisper σ s raw
  = match lookup_connection σ target with
    | None => add_wire σ [sent σ s (not_found_line target)]
    | Some t =>
      add_wire σ [sent σ t (whisper_line (sender_or_unknown σ s) message);
                  sent σ s (whisper_sent_line (sender_or_unknown σ s) target message)]
    end.
Proof.
  intros Hsplit Ht Hm. unfold handle_whisper, lookup_connection. rewrite Hsplit.
  apply String.eqb_neq in Ht, Hm. rewrite Ht, Hm. simpl.
  destruct (nick_map σ !! target); [|done].
  by rewrite !send_line_add_wire, add_wire_add_wire.
Qed.



(** ** Shutdown *)

Lemma close_closed σ s : s ∈ closed σ → close σ s = σ.
Proof.
  intros Hs. rewrite (server_eta σ) at 2. unfold close. f_equal. set_solver.
Qed.




(** What the drain loop leaves outside the wire. *)
Lemma drain_fields (l : list sock) σ :
  let τ := foldl (λ τ s, close (send_line τ s shutdown_notice) s) σ l in
  clients τ = clients σ ∧ nick_map τ = nick_map σ ∧ stop_event τ = stop_event σ
  ∧ listener_closed τ = listener_closed σ ∧ broken τ = broken σ
  ∧ console τ = console σ ∧ closed τ = list_to_set l ∪ closed σ.
Proof.
  revert σ. induction l as [|a l IH]; intros σ; simpl.
  - repeat split. set_solver.
  - destruct (IH (close (send_line σ a shutdown_notice) a))
      as (-> & -> & -> & -> & -> & -> & ->). simpl.
    repeat split. set_solver.
Qed.

(** The first drain over sockets none of which is closed twice in it. *)
Lemma drain_wire (l : list sock) σ :
  NoDup l →
  wire (foldl (λ τ s, close (send_line τ s shutdown_notice) s) σ l)
  = wire σ ++ ((λ s, sent σ s shutdown_notice) <$> l).
Proof.
  revert σ. induction l as [|a l IH]; intros σ Hnd; simpl.
  - by rewrite app_nil_r.
  - apply NoDup_cons in Hnd as [Ha Hnd]. rewrite IH by done. simpl.
    rewrite <-app_assoc. simpl. do 2 f_equal.
    apply list_fmap_ext. intros i t Ht%list_elem_of_lookup_2.
    assert (t ≠ a) as Hne by (by intros ->).
    unfold sent, writable. simpl.
    by rewrite (bool_decide_ext (t ∉ {[a]} ∪ closed σ) (t ∉ closed σ))
      by set_solver.
Qed.




Lemma shutdown_fields σ :
  clients (shutdown σ) = clients σ ∧ nick_map (shutdown σ) = nick_map σ
  ∧ stop_event (shutdown σ) = true ∧ listener_closed (shutdown σ) = true
  ∧ broken (shutdown σ) = broken σ ∧ console (shutdown σ) = console σ
  ∧ closed (shutdown σ) = list_to_set (Dict.keys (clients σ)) ∪ closed σ.
Proof.
  unfold shutdown. cbv zeta.
  match goal with
  | |- context [foldl ?f ?a ?l] => pose proof (drain_fields l a) as Hf
  end.
  cbv zeta in Hf. destruct Hf as (Hc & Hn & Hs & Hl & Hb & Hk & Hcl).
  simpl in *. by rewrite Hc, Hn, Hs, Hb, Hk, Hcl.
Qed.


(** ** Cleanup *)

Lemma remove_client_unregistered σ s :
  get_nickname σ s = None → remove_client σ s = close σ s.
Proof.
  unfold get_nickname, remove_client. intros Hs. rewrite Hs. simpl.
  unfold with_registry. rewrite dict_remove_absent by done.
  by rewrite <-server_eta.
Qed.


(** ** Handshake *)

Lemma enter_session_eq σ s nickname :
  enter_session σ s nickname
  = Server (Dict.set (clients σ) s nickname) (<[nickname := s]> (nick_map σ))
           (stop_event σ) (listener_closed σ) (closed σ) (broken σ)
           (wire σ
            ++ ((λ t, sent σ t (join_line nickname))
                  <$> Dict.keys (Dict.set (clients σ) s nickname))
            ++ [sent σ s help_line_1; sent σ s help_line_2])
           (console σ ++ ["[*] 접속: " +:+ nickname]).
Proof.
  unfold enter_session. rewrite broadcast_add_wire, !send_line_add_wire.
  rewrite !add_wire_add_wire. unfold add_wire, register_client, print, with_registry.
  simpl. done.
Qed.



(** ** Session end *)

Lemma wrote_clients σ τ : wrote σ τ → clients τ = clients σ.
Proof. by intros [evs ->]. Qed.

Lemma nonempty_nicks_clients σ τ :
  clients τ = clients σ → nonempty_nicks σ → nonempty_nicks τ.
Proof. unfold nonempty_nicks, get_nickname. by intros ->. Qed.

Lemma base_of_nonempty data : base_of data ≠ "".
Proof.
  unfold base_of. destruct (String.eqb _ "") eqn:Hraw; [done|].
  by apply String.eqb_neq.
Qed.

(** The [try] block registers nothing but a non-empty nickname. *)
Lemma handle_client_try_nonempty σ s reads :
  nonempty_nicks σ → nonempty_nicks (handle_client_try σ s reads).1.
Proof.
  intros Hσ. destruct reads as [|r rest]; simpl; [done|].
  unfold handshake_for_nickname, handshake_after_prompt.
  destruct r as [data| |]; simpl; try done.
  destruct (String.eqb data ""); simpl; [done|].
  eapply nonempty_nicks_clients; [apply wrote_clients, wrote_session_loop|].
  rewrite enter_session_eq. intros c n. unfold get_nickname. simpl.
  rewrite dict_get_set. destruct (decide (s = c)) as [->|]; [|apply Hσ].
  intros [= <-]. apply make_unique_nickname_nonempty, base_of_nonempty.
Qed.

(** The ways out of the session loop. *)
Example session_end_paths (σ : server) (s : sock) (rest : list recv_result) :
  session_loop σ s (Recv "" :: rest) = (σ, PeerClosed)
  ∧ session_loop σ s (Recv " /종료 " :: rest) = (send_line σ s bye_line, Quit)
  ∧ session_loop σ s (RaiseReset :: rest) = (σ, Reset)
  ∧ session_loop σ s (RaiseOther :: rest) = (σ, Raised).
Proof. repeat split. Qed.


(** ** The registry under schedules of calls *)

Lemma remove_client_registry σ c :
  clients (remove_client σ c) = Dict.remove (clients σ) c
  ∧ nick_map (remove_client σ c)
    = match get_nickname σ c with
      | Some n => if String.eqb n "" then nick_map σ else delete n (nick_map σ)
      | None => nick_map σ
      end.
Proof.
  unfold remove_client, get_nickname.
  destruct (Dict.get (clients σ) c) as [n|]; simpl; [|done].
  destruct (String.eqb n ""); simpl; rewrite ?broadcast_add_wire; done.
Qed.

Lemma register_client_nick_of_conn σ c n :
  nick_map σ !! n = None → nick_of_conn_ok σ → nick_of_conn_ok (register_client σ c n).
Proof.
  intros Hfree Hok c' n'. unfold get_nickname, lookup_connection. simpl.
  rewrite dict_get_set. destruct (decide (c = c')) as [->|Hc].
  - intros [= <-]. apply lookup_insert_eq.
  - intros Hc'. apply Hok in Hc'. unfold lookup_connection in Hc'.
    rewrite lookup_insert_ne; [done|]. intros ->. congruence.
Qed.

Lemma remove_client_nick_of_conn σ c :
  nick_of_conn_ok σ → nick_of_conn_ok (remove_client σ c).
Proof.
  intros Hok c' n'. unfold get_nickname, lookup_connection.
  destruct (remove_client_registry σ c) as [-> ->].
  rewrite dict_get_remove. destruct (decide (c = c')) as [->|Hc]; [done|].
  intros Hc'. pose proof (Hok _ _ Hc') as Hn'. unfold lookup_connection in Hn'.
  destruct (get_nickname σ c) as [n|] eqn:Hcn; [|done].
  destruct (String.eqb n ""); [done|].
  rewrite lookup_delete_ne; [done|]. intros ->.
  apply Hok in Hcn. unfold lookup_connection in Hcn. congruence.
Qed.

Lemma register_client_conn_of_nick σ c n :
  get_nickname σ c = None → conn_of_nick_ok σ → conn_of_nick_ok (register_client σ c n).
Proof.
  intros Hnew Hok n' c'. unfold get_nickname, lookup_connection. simpl.
  rewrite dict_get_set, lookup_insert.
  destruct (decide (n = n')) as [->|Hn].
  - intros [= <-]. by rewrite decide_True.
  - intros Hn'. apply Hok in Hn'. rewrite decide_False; [done|]. intros ->. congruence.
Qed.

Lemma remove_client_conn_of_nick σ c :
  nonempty_nicks σ → conn_of_nick_ok σ → conn_of_nick_ok (remove_client σ c).
Proof.
  intros Hne Hok n' c'. unfold get_nickname, lookup_connection.
  destruct (remove_client_registry σ c) as [-> ->].
  rewrite dict_get_remove.
  destruct (get_nickname σ c) as [n|] eqn:Hcn.
  - apply Hne in Hcn as Hn. apply String.eqb_neq in Hn. rewrite Hn.
    rewrite lookup_delete. destruct (decide (n = n')) as [->|Hnn]; [done|].
    intros Hn'. apply Hok in Hn'. rewrite decide_False; [done|]. intros ->. congruence.
  - intros Hn'. apply Hok in Hn'. rewrite decide_False; [done|]. intros ->. congruence.
Qed.

Lemma register_client_nonempty σ c n :
  n ≠ "" → nonempty_nicks σ → nonempty_nicks (register_client σ c n).
Proof.
  intros Hn Hne c' n'. unfold get_nickname. simpl. rewrite dict_get_set.
  destruct (decide (c = c')); [by intros [= <-]|apply Hne].
Qed.

Lemma remove_client_nonempty σ c :
  nonempty_nicks σ → nonempty_nicks (remove_client σ c).
Proof.
  intros Hne c' n'. unfold get_nickname.
  destruct (remove_client_registry σ c) as [-> _]. rewrite dict_get_remove.
  destruct (decide (c = c')); [done|apply Hne].
Qed.

Module ScheduleFacts.
Import Schedule.

Lemma run_fresh_names calls κ :
  fresh_names κ calls = true →
  nick_of_conn_ok (srv κ) → nick_of_conn_ok (srv (run κ calls)).
Proof.
  revert κ. induction calls as [|a calls IH]; intros κ; simpl; [done|].
  intros [Ha Hrest]%andb_true_iff Hok. apply IH; [done|].
  destruct a as [c base|c|c]; simpl; [done| |by apply remove_client_nick_of_conn].
  destruct (local κ !! c) as [n|]; [|done]. simpl.
  apply bool_decide_eq_true in Ha. by apply register_client_nick_of_conn.
Qed.

Lemma run_once_nonempty calls κ :
  once_nonempty κ calls = true →
  nonempty_nicks (srv κ) → conn_of_nick_ok (srv κ) →
  conn_of_nick_ok (srv (run κ calls)).
Proof.
  revert κ. induction calls as [|a calls IH]; intros κ; simpl; [done|].
  intros [Ha Hrest]%andb_true_iff Hne Hok.
  destruct a as [c base|c|c]; simpl in *.
  - by apply IH.
  - destruct (local κ !! c) as [n|] eqn:Hn; [|done]. rewrite ?Hn in Hrest.
    apply andb_true_iff in Ha as [Ha1%negb_true_iff%String.eqb_neq
                                    Ha2%bool_decide_eq_true].
    apply IH; [done|by apply register_client_nonempty
                   |by apply register_client_conn_of_nick].
  - apply IH; [done|by apply remove_client_nonempty
                   |by apply remove_client_conn_of_nick].
Qed.

Lemma start_ok :
  nick_of_conn_ok (srv start) ∧ conn_of_nick_ok (srv start)
  ∧ nonempty_nicks (srv start).
Proof. repeat split; intros ??; by unfold get_nickname, lookup_connection. Qed.

(** Handshakes whose generated name is still free when they register get
    pairwise distinct nicknames. *)
Lemma fresh_names_distinct calls :
  fresh_names start calls = true → distinct_nicknames (srv (run start calls)).
Proof.
  intros Hfresh c1 c2 n H1 H2.
  pose proof (run_fresh_names calls start Hfresh (proj1 start_ok)) as Hok.
  apply Hok in H1, H2. congruence.
Qed.

(** C2 (as the code has it). After any sequence of generate, register
    and unregister calls from the empty registry in which every register
    is given the name its handler generated, still free at that time: the
    nickname of every registered connection leads back to that connection.
    When moreover every register is for a connection not registered at
    that time, under a non-empty name, the connection of every registered
    nickname carries that nickname. *)
Theorem registry_bijective (calls : list call) :
  fresh_names start calls = true →
  nick_of_conn_ok (srv (run start calls))
  ∧ (once_nonempty start calls = true → bijective (srv (run start calls))).
Proof.
  intros Hfresh.
  pose proof (run_fresh_names calls start Hfresh (proj1 start_ok)) as Hok.
  split; [done|]. intros Honce. split; [done|].
  apply run_once_nonempty; [done|apply start_ok..].
Qed.
End ScheduleFacts.

(** ** Concrete runs *)

Module Runs.
Import Schedule ScheduleFacts.

(** C1. The lock is released between [_make_unique_nickname] and
    [_register_client]: when two handshakes asking for [alice] both
    generate before either registers, both are told [alice] and both are
    registered under [alice]; [nick_map] keeps the second only. *)
Theorem handshake_race :
  let κ := run start race in
  local κ !! 1 = Some "alice" ∧ local κ !! 2 = Some "alice"
  ∧ clients (srv κ) = [(1, "alice"); (2, "alice")]
  ∧ lookup_connection (srv κ) "alice" = Some 2
  ∧ ¬ distinct_nicknames (srv κ)
  ∧ let h1 := handshake_for_nickname init 1 (Recv "alice") in
    let h2 := handshake_for_nickname h1.1 2 (Recv "alice") in
    h1.2 = Nick "alice" ∧ h2.2 = Nick "alice"
    ∧ clients (enter_session (enter_session h2.1 1 "alice") 2 "alice")
      = [(1, "alice"); (2, "alice")].
Proof.
  assert (clients (srv (run start race)) = [(1, "alice"); (2, "alice")]) as Hc
    by (vm_compute; done).
  split; [vm_compute; done|]. split; [vm_compute; done|].
  split; [done|]. split; [vm_compute; done|]. split.
  - intros Hd. specialize (Hd 1 2 "alice"). unfold get_nickname in Hd.
    rewrite Hc in Hd. by specialize (Hd eq_refl eq_refl).
  - vm_compute. done.
Qed.

Example in_turn_names :
  clients (srv (run start [Generate 1 "alice"; Register 1;
                           Generate 2 "alice"; Register 2]))
  = [(1, "alice"); (2, "alice2")].
Proof. vm_compute. done. Qed.

Lemma registry_bijective_witness : bijective (srv (run start in_turn)).
Proof.
  destruct (registry_bijective in_turn) as [_ H]; [vm_compute; reflexivity|].
  apply H. vm_compute. reflexivity.
Defined.

(** The same connection registered a second time leaves its first
    nickname in [nick_map]; a connection registered under the empty name
    leaves that name in [nick_map] when it is removed. *)
Lemma registry_not_bijective :
  (fresh_names start twice = true ∧ ¬ bijective (srv (run start twice)))
  ∧ (fresh_names start blank = true ∧ ¬ bijective (srv (run start blank))).
Proof.
  split; (split; [vm_compute; done|]); intros [_ H].
  - specialize (H "alice" 1). unfold lookup_connection, get_nickname in H.
    assert (nick_map (srv (run start twice)) !! "alice" = Some 1) as Ha
      by (vm_compute; done).
    apply H in Ha. vm_compute in Ha. done.
  - specialize (H "" 1). unfold lookup_connection, get_nickname in H.
    assert (nick_map (srv (run start blank)) !! "" = Some 1) as Ha
      by (vm_compute; done).
    apply H in Ha. vm_compute in Ha. done.
Qed.






Lemma make_unique_nickname_spec_witness :
  make_unique_nickname init "bob" = "bob"
  ∧ make_unique_nickname (register_client init 7 "alice") "alice"
    = make_unique_nickname (register_client init 1 "alice") "alice".
Proof.
  split; [exact (proj1 (make_unique_nickname_spec init "bob"))|].
  apply (proj2 (make_unique_nickname_spec (register_client init 1 "alice") "alice")).
  vm_compute. reflexivity.
Defined.

Lemma broadcast_snapshot_witness :
  Delivered 2 ("hi" +:+ Text.nl) ∈ wire (broadcast two_sessions "hi")
  ∧ session_loop two_sessions 2 [Recv "hello"]
    = (add_wire two_sessions [Dropped 1 ("bob> hello" +:+ Text.nl);
                              Delivered 2 ("bob> hello" +:+ Text.nl)], Blocked).
Proof.
  destruct (broadcast_snapshot two_sessions "hi") as (_ & Hdel & _ & _).
  destruct (broadcast_snapshot two_sessions "") as (_ & _ & _ & Hloop).
  split.
  - apply Hdel; [|vm_compute; reflexivity].
    apply list_elem_of_In. simpl. right. left. reflexivity.
  - exact (Hloop 2 "hello" [] "bob" "hello" eq_refl eq_refl).
Defined.

End Runs.

(** * Further properties of the server *)

(** ** Removal *)

Lemma remove_client_gone σ s :
  get_nickname (remove_client σ s) s = None ∧ s ∈ closed (remove_client σ s).
Proof.
  split.
  - unfold get_nickname. destruct (remove_client_registry σ s) as [-> _].
    by rewrite dict_get_remove, decide_True.
  - unfold remove_client. simpl. set_solver.
Qed.

(** [_remove_client] may be called again, or on a connection that was
    never registered: the second call changes nothing, and on an
    unregistered connection the call only closes the socket, without a
    leave line. *)
Theorem remove_client_twice (σ : server) (s : sock) :
  remove_client (remove_client σ s) s = remove_client σ s
  ∧ (get_nickname σ s = None → remove_client σ s = close σ s).
Proof.
  destruct (remove_client_gone σ s) as [Hgone Hclosed]. split.
  - rewrite (remove_client_unregistered _ _ Hgone). by apply close_closed.
  - apply remove_client_unregistered.
Qed.

(** ** Whisper commands *)

Lemma app_cons a s t : String a s +:+ t = String a (s +:+ t).
Proof. reflexivity. Qed.

Lemma cut_space_some s h t :
  Text.cut_space s = Some (h, t) → s = h +:+ " " +:+ t ∧ Text.cut_space h = None.
Proof.
  revert h. induction s as [|a s IH]; intros h; simpl; [done|].
  destruct (Ascii.eqb a " ") eqn:Ha.
  - apply Ascii.eqb_eq in Ha as ->. by intros [= <- <-].
  - destruct (Text.cut_space s) as [[h' t']|]; [|done].
    intros [= <- <-]. destruct (IH h' eq_refl) as [-> Hh']. split; [done|].
    simpl. by rewrite Ha, Hh'.
Qed.

Lemma cut_space_app h t :
  Text.cut_space h = None → Text.cut_space (h +:+ " " +:+ t) = Some (h, t).
Proof.
  induction h as [|a h IH]; [done|].
  change (String a h +:+ " " +:+ t) with (String a (h +:+ " " +:+ t)). simpl.
  destruct (Ascii.eqb a " "); [done|].
  destruct (Text.cut_space h); [by destruct p|]. intros _. by rewrite IH.
Qed.

(** [raw.split(' ', 2)] has three fields exactly when [raw] is two
    space-free fields and a rest, joined by single spaces. *)
Lemma split_space_three raw w target message :
  Text.split_space 2 raw = [w; target; message]
  ↔ raw = w +:+ " " +:+ target +:+ " " +:+ message
    ∧ Text.cut_space w = None ∧ Text.cut_space target = None.
Proof.
  split.
  - simpl. destruct (Text.cut_space raw) as [[h t]|] eqn:H1; [|done].
    destruct (Text.cut_space t) as [[h' t']|] eqn:H2; [|done].
    intros [= -> -> ->].
    apply cut_space_some in H1 as [-> ?], H2 as [-> ?]. done.
  - intros (-> & Hw & Ht). simpl.
    rewrite (cut_space_app _ _ Hw), (cut_space_app _ _ Ht). done.
Qed.

(** Whatever the line, [_handle_whisper] does one of three things: it
    answers the sender with the usage line; or the line is two space-free
    fields and a non-empty message joined by single spaces, and it answers
    that the target (the second field) is unknown, or writes the message to
    the connection registered under the target and the confirmation to the
    sender. The target never contains a space, so a session whose nickname
    contains one cannot be whispered to. *)
Theorem handle_whisper_cases (σ : server) (s : sock) (raw : string) :
  handle_whisper σ s raw = add_wire σ [sent σ s usage_line]
  ∨ ∃ w target message,
      raw = w +:+ " " +:+ target +:+ " " +:+ message
      ∧ Text.cut_space w = None ∧ Text.cut_space target = None
      ∧ target ≠ "" ∧ message ≠ ""
      ∧ handle_whisper σ s raw
        = match lookup_connection σ target with
          | None => add_wire σ [sent σ s (not_found_line target)]
          | Some t =>
            add_wire σ
              [sent σ t (whisper_line (sender_or_unknown σ s) message);
               sent σ s (whisper_sent_line (sender_or_unknown σ s) target message)]
          end.
Proof.
  destruct (Text.split_space 2 raw) as [|w [|target [|message [|p ps]]]] eqn:Hsplit;
    try (left; unfold handle_whisper; by rewrite Hsplit).
  destruct (decide (target = "")) as [->|Ht];
    [left; unfold handle_whisper; by rewrite Hsplit|].
  destruct (decide (message = "")) as [->|Hm].
  { left. unfold handle_whisper. rewrite Hsplit.
    by rewrite orb_true_r. }
  right. exists w, target, message.
  pose proof Hsplit as (-> & Hw & Htarget)%split_space_three.
  split; [done|]. split; [done|]. split; [done|]. split; [done|]. split; [done|].
  by apply handle_whisper_parsed with w.
Qed.

(** A whisper [/w target message] from a registered sender to a registered
    target is written to the target as [(귓속말) sender> message] and
    confirmed to the sender; the message is everything after the second
    space, further spaces included, and the registry is not touched. *)
Theorem whisper_delivery (σ : server) (s t : sock) (n target message : string) :
  Text.cut_space target = None → target ≠ "" → message ≠ "" →
  lookup_connection σ target = Some t →
  get_nickname σ s = Some n → n ≠ "" →
  handle_whisper σ s ("/w " +:+ target +:+ " " +:+ message)
  = add_wire σ [sent σ t (whisper_line n message);
                sent σ s (whisper_sent_line n target message)].
Proof.
  intros Hsp Ht Hm Htarget Hs Hn.
  assert (Text.split_space 2 ("/w " +:+ target +:+ " " +:+ message)
          = ["/w"; target; message]) as Hsplit.
  { apply split_space_three. done. }
  rewrite (handle_whisper_parsed _ _ _ _ _ _ Hsplit Ht Hm), Htarget.
  unfold sender_or_unknown. rewrite Hs. simpl.
  apply String.eqb_neq in Hn. by rewrite Hn.
Qed.

(** ** The first shutdown *)

(** [_shutdown] sets the stop flag, writes the termination notice to every
    registered connection and only then closes it, in registration order,
    and closes the listener. It leaves [clients] and [nick_map] alone: the
    sessions are still registered afterwards. *)
Theorem shutdown_notifies (σ : server) :
  NoDup (Dict.keys (clients σ)) →
  shutdown σ
  = Server (clients σ) (nick_map σ) true true
           (list_to_set (Dict.keys (clients σ)) ∪ closed σ) (broken σ)
           (wire σ ++ ((λ s, sent σ s shutdown_notice) <$> Dict.keys (clients σ)))
           (console σ).
Proof.
  intros Hnd. rewrite (server_eta (shutdown σ)).
  destruct (shutdown_fields σ) as (-> & -> & -> & -> & -> & -> & ->).
  f_equal. unfold shutdown. cbv zeta. simpl.
  by rewrite drain_wire.
Qed.

(** ** The console *)

(** [admin_console] ignores every line that is not the quit command once
    stripped; at the first line that is, it prints, shuts the server down
    and reads no further. If the input ends before such a line, it has done
    nothing. *)
Theorem admin_console_quit (σ : server) (before after : list string) (cmd : string) :
  Forall (λ c, Text.strip c ≠ quit_command) before →
  admin_console σ before = σ
  ∧ (Text.strip cmd = quit_command →
     admin_console σ (before ++ cmd :: after)
     = shutdown (print σ "[*] 서버 종료 명령 수신")).
Proof.
  induction 1 as [|c before Hc Hbefore IH]; simpl.
  - split; [done|]. intros ->. done.
  - apply String.eqb_neq in Hc. unfold quit_command in Hc. by rewrite Hc.
Qed.

(** ** What the session loop leaves alone *)

Lemma wrote_lines_refl σ : wrote_lines σ σ.
Proof. exists []. by rewrite add_wire_nil. Qed.

Lemma wrote_lines_trans σ1 σ2 σ3 :
  wrote_lines σ1 σ2 → wrote_lines σ2 σ3 → wrote_lines σ1 σ3.
Proof.
  intros (e1 & -> & H1) (e2 & -> & H2). exists (e1 ++ e2).
  split; [apply add_wire_add_wire|]. apply Forall_app. done.
Qed.

Lemma wrote_lines_send_line σ s line : wrote_lines σ (send_line σ s line).
Proof. exists [sent σ s line]. split; [done|]. repeat constructor. by eauto. Qed.

Lemma wrote_lines_broadcast σ line : wrote_lines σ (broadcast σ line).
Proof.
  eexists. split; [apply broadcast_add_wire|].
  apply Forall_fmap, Forall_forall. intros t _. simpl. by eauto.
Qed.

Lemma wrote_lines_handle_whisper σ s raw : wrote_lines σ (handle_whisper σ s raw).
Proof.
  unfold handle_whisper.
  destruct (Text.split_space 2 raw) as [|p0 [|p1 [|p2 [|p3 ps]]]];
    try apply wrote_lines_send_line.
  destruct (_ || _); [apply wrote_lines_send_line|].
  destruct (nick_map σ !! p1); [|apply wrote_lines_send_line].
  eapply wrote_lines_trans; apply wrote_lines_send_line.
Qed.

Lemma wrote_lines_session_loop reads σ s : wrote_lines σ (session_loop σ s reads).1.
Proof.
  revert σ. induction reads as [|r reads IH]; intros σ; simpl; [apply wrote_lines_refl|].
  destruct r as [data| |]; [|apply wrote_lines_refl..].
  destruct (String.eqb data ""); [apply wrote_lines_refl|].
  destruct (String.eqb _ ""); [apply IH|].
  destruct (String.eqb _ quit_command); [apply wrote_lines_send_line|].
  destruct (Text.startswith _ _).
  - eapply wrote_lines_trans; [apply wrote_lines_handle_whisper|apply IH].
  - destruct (get_nickname σ s); [|apply wrote_lines_refl].
    eapply wrote_lines_trans; [apply wrote_lines_broadcast|apply IH].
Qed.

(** Whatever it reads, the session loop only writes lines: it never
    changes [clients] or [nick_map], never closes a socket and never
    touches the stop flag; and nothing it writes is delivered to a socket
    that was closed before. *)
Theorem session_loop_only_writes (σ : server) (s : sock) (reads : list recv_result) :
  ∃ evs, (session_loop σ s reads).1 = add_wire σ evs
         ∧ ∀ c data, c ∈ closed σ → Delivered c data ∉ evs.
Proof.
  destruct (wrote_lines_session_loop reads σ s) as (evs & Heq & Hevs).
  exists evs. split; [done|]. intros c data Hc Hin.
  rewrite Forall_forall in Hevs. destruct (Hevs _ Hin) as (t & line & Hsent).
  unfold sent in Hsent. destruct (writable σ t) eqn:Hw; [|done].
  injection Hsent as -> _. unfold writable in Hw.
  apply andb_true_iff in Hw as [Hw%bool_decide_eq_true _]. done.
Qed.

(** ** A whole handler run *)

Lemma dict_remove_set {K V : Type} `{EqDecision K} (d : Dict.t K V) k v :
  Dict.get d k = None → Dict.remove (Dict.set d k v) k = d.
Proof.
  induction d as [|[k0 v0] d IH]; simpl.
  - by rewrite decide_True.
  - destruct (decide (k0 = k)); [done|]. simpl. rewrite decide_False by done.
    intros ?. by rewrite IH.
Qed.

Lemma wrote_nick_map σ τ : wrote σ τ → nick_map τ = nick_map σ.
Proof. by intros [evs ->]. Qed.

(** The [try] block either leaves the registry alone or has added the
    connection under a name that was free and is not empty. *)
Lemma handle_client_try_registry σ s reads :
  let σ1 := (handle_client_try σ s reads).1 in
  (clients σ1 = clients σ ∧ nick_map σ1 = nick_map σ)
  ∨ ∃ n, n ≠ "" ∧ nick_map σ !! n = None
         ∧ clients σ1 = Dict.set (clients σ) s n
         ∧ nick_map σ1 = <[n := s]> (nick_map σ).
Proof.
  destruct reads as [|r rest]; simpl; [by left|].
  unfold handshake_for_nickname, handshake_after_prompt.
  destruct r as [data| |]; simpl; try (by left).
  destruct (String.eqb data ""); simpl; [by left|].
  right. exists (make_unique_nickname σ (base_of data)). split; [|split].
  - apply make_unique_nickname_nonempty, (base_of_nonempty data).
  - apply (make_unique_nickname_free σ).
  - match goal with
    | |- context [session_loop ?τ s rest] =>
      pose proof (wrote_session_loop rest τ s) as Hw
    end.
    rewrite (wrote_clients _ _ Hw), (wrote_nick_map _ _ Hw), enter_session_eq.
    done.
Qed.

(** A handler run that has ended leaves the registry as it found it. *)
Lemma handle_client_registry σ s reads :
  get_nickname σ s = None →
  (handle_client σ s reads).2 ≠ Blocked →
  clients (handle_client σ s reads).1 = clients σ
  ∧ nick_map (handle_client σ s reads).1 = nick_map σ
  ∧ s ∈ closed (handle_client σ s reads).1.
Proof.
  intros Hfresh. unfold handle_client.
  pose proof (handle_client_try_registry σ s reads) as Hreg. cbv zeta in Hreg.
  destruct (handle_client_try σ s reads) as [σ1 o]. simpl in Hreg.
  assert (clients (remove_client σ1 s) = clients σ
          ∧ nick_map (remove_client σ1 s) = nick_map σ
          ∧ s ∈ closed (remove_client σ1 s)) as Hrem.
  { destruct (remove_client_registry σ1 s) as [Hc Hn].
    split; [|split]; [| |apply remove_client_gone]; rewrite ?Hc, ?Hn;
      unfold get_nickname in *.
    - destruct Hreg as [[Hc1 _]|(n & _ & _ & Hc1 & _)]; rewrite Hc1.
      + by apply dict_remove_absent.
      + by apply dict_remove_set.
    - destruct Hreg as [[Hc1 Hn1]|(n & Hne & Hfree & Hc1 & Hn1)]; rewrite Hc1, Hn1.
      + by rewrite Hfresh.
      + rewrite dict_get_set, decide_True by done.
        apply String.eqb_neq in Hne. rewrite Hne. by apply delete_insert_id. }
  by destruct o.
Qed.

(** A handler that has run to its end on a fresh connection, whichever way
    it ended, leaves [clients] and [nick_map] exactly as it found them and
    the connection closed: the nickname it held is free again, so the next
    handshake is given the same names as before. *)
Theorem finished_session_restores_registry (σ : server) (s : sock)
    (reads : list recv_result) :
  get_nickname σ s = None →
  (handle_client σ s reads).2 ≠ Blocked →
  clients (handle_client σ s reads).1 = clients σ
  ∧ nick_map (handle_client σ s reads).1 = nick_map σ
  ∧ s ∈ closed (handle_client σ s reads).1
  ∧ ∀ base, make_unique_nickname (handle_client σ s reads).1 base
            = make_unique_nickname σ base.
Proof.
  intros Hfresh Hend.
  destruct (handle_client_registry σ s reads Hfresh Hend) as (Hc & Hn & Hcl).
  split; [done|]. split; [done|]. split; [done|].
  intros base. apply make_unique_nickname_dom. by rewrite Hn.
Qed.

Lemma bijective_registry σ τ :
  clients τ = clients σ → nick_map τ = nick_map σ → bijective σ → bijective τ.
Proof.
  unfold bijective, nick_of_conn_ok, conn_of_nick_ok, get_nickname, lookup_connection.
  by intros -> ->.
Qed.

(** Handlers that run one after the other keep the registry a bijection
    without empty nicknames, wherever the run of each one stands: still
    in its session, or ended. *)
Theorem handler_keeps_bijection (σ : server) (s : sock) (reads : list recv_result) :
  bijective σ → nonempty_nicks σ → get_nickname σ s = None →
  bijective (handle_client σ s reads).1 ∧ nonempty_nicks (handle_client σ s reads).1.
Proof.
  intros Hbij Hne Hfresh.
  assert ((handle_client σ s reads).2 = Blocked
          ∨ (handle_client σ s reads).2 ≠ Blocked) as [Hblocked|Hend]
    by (destruct ((handle_client σ s reads).2); (by left) || (by right)).
  - assert ((handle_client σ s reads).1 = (handle_client_try σ s reads).1) as ->.
    { revert Hblocked. unfold handle_client.
      destruct (handle_client_try σ s reads) as [σ1 o]. by destruct o. }
    split; [|by apply handle_client_try_nonempty].
    pose proof (handle_client_try_registry σ s reads) as Hreg. cbv zeta in Hreg.
    destruct Hreg as [[Hc Hn]|(n & Hn0 & Hfree & Hc & Hn)].
    + by apply (bijective_registry σ).
    + apply (bijective_registry (register_client σ s n)); [done..|].
      destruct Hbij. split.
      * by apply register_client_nick_of_conn.
      * by apply register_client_conn_of_nick.
  - destruct (handle_client_registry σ s reads Hfresh Hend) as (Hc & Hn & _).
    split; [by apply (bijective_registry σ)|].
    by apply (nonempty_nicks_clients σ).
Qed.

(** ** Joining in one locked step *)

Module SessionsFacts.
Import Schedule ScheduleFacts Sessions.

Lemma fresh_names_app calls1 calls2 κ :
  fresh_names κ (calls1 ++ calls2)
  = fresh_names κ calls1 && fresh_names (run κ calls1) calls2.
Proof.
  revert κ. induction calls1 as [|a calls1 IH]; intros κ; simpl; [done|].
  by rewrite IH, andb_assoc.
Qed.

Lemma fresh_names_expand ops κ : fresh_names κ (expand ops) = true.
Proof.
  revert κ. induction ops as [|o ops IH]; intros κ; [done|].
  unfold expand. simpl. fold (expand ops). rewrite fresh_names_app, IH, andb_true_r.
  destruct o as [c base|c]; simpl; [|done].
  rewrite lookup_insert_eq, andb_true_r.
  apply bool_decide_eq_true, make_unique_nickname_free.
Qed.

(** Were generation and registration one locked step, as a [Join] is, no
    schedule of joins and leaves could give two registered connections the
    same nickname, and the nickname of every registered connection would
    lead back to it. *)
Theorem atomic_joins_distinct (ops : list op) :
  let σ := srv (run start (expand ops)) in
  distinct_nicknames σ ∧ nick_of_conn_ok σ.
Proof.
  pose proof (run_fresh_names (expand ops) start (fresh_names_expand ops start)
                (proj1 start_ok)) as Hok.
  split; [|done]. intros c1 c2 n H1 H2. apply Hok in H1, H2. congruence.
Qed.

End SessionsFacts.

(** ** The numeric suffixes, one join after the other *)

Lemma pretty_N_go_length x s :
  String.length s ≤ String.length (pretty_N_go x s).
Proof.
  revert s. induction (N.lt_wf_0 x) as [x _ IH]; intros s.
  assert (x = 0 ∨ 0 < x)%N as [->|Hx] by lia; [by rewrite pretty_N_go_0|].
  rewrite pretty_N_go_step by done.
  etrans; [|apply IH; by apply N.div_lt]. simpl. lia.
Qed.

Lemma pretty_nat_nonempty (i : nat) : pretty i ≠ "".
Proof.
  unfold pretty, pretty_nat, pretty, pretty_N.
  destruct (decide (N.of_nat i = 0%N)); [done|].
  rewrite pretty_N_go_step by lia. intros Heq.
  pose proof (pretty_N_go_length (N.of_nat i `div` 10)
    (String (pretty_N_char (N.of_nat i `mod` 10)) "")) as Hlen.
  rewrite Heq in Hlen. simpl in Hlen. lia.
Qed.

Lemma app_empty_r (s : string) : s +:+ "" = s.
Proof. induction s as [|a s IH]; [done|]. by rewrite app_cons, IH. Qed.

Lemma cand_ne_base base i : cand base i ≠ base.
Proof.
  unfold cand. intros Heq. rewrite <-(app_empty_r base) in Heq at 2.
  apply String.app_inj in Heq. by apply pretty_nat_nonempty in Heq.
Qed.

Lemma dict_set_absent {K V : Type} `{EqDecision K} (d : Dict.t K V) k v :
  Dict.get d k = None → Dict.set d k v = d ++ [(k, v)].
Proof.
  induction d as [|[k0 v0] d IH]; simpl; [done|].
  destruct (decide (k0 = k)); [done|]. intros ?. by rewrite IH.
Qed.

Module SuffixFacts.
Import Schedule Sessions.

Lemma expand_app ops1 ops2 : expand (ops1 ++ ops2) = expand ops1 ++ expand ops2.
Proof. unfold expand. by rewrite fmap_app, concat_app. Qed.

Lemma same_base_S base k :
  same_base base (S k) = same_base base k ++ [Join (S k) base].
Proof. unfold same_base. by rewrite seq_S, fmap_app. Qed.

Lemma run_app κ calls1 calls2 : run κ (calls1 ++ calls2) = run (run κ calls1) calls2.
Proof. apply foldl_app. Qed.

Lemma run_join κ c base :
  srv (run κ (expand [Join c base]))
  = register_client (srv κ) c (make_unique_nickname (srv κ) base).
Proof. unfold expand. simpl. by rewrite lookup_insert_eq. Qed.

Lemma register_client_fields σ s n :
  clients (register_client σ s n) = Dict.set (clients σ) s n
  ∧ nick_map (register_client σ s n) = <[n := s]> (nick_map σ).
Proof. done. Qed.

(** The registry after [k] joins asking for [base]. *)
Lemma same_base_state base k :
  clients (srv (run start (expand (same_base base k))))
  = (λ c, (c, nth_name base c)) <$> seq 1 k
  ∧ ∀ x, is_Some (nick_map (srv (run start (expand (same_base base k)))) !! x)
         ↔ ∃ c, 1 ≤ c ≤ k ∧ x = nth_name base c.
Proof.
  induction k as [|k [IHc IHn]].
  { simpl. split; [done|]. intros x. rewrite lookup_empty. split; [by intros [? ?]|].
    intros (c & ? & _). lia. }
  rewrite same_base_S, expand_app, run_app, run_join.
  set (κ := run start (expand (same_base base k))) in *.
  destruct (register_client_fields (srv κ) (S k) (make_unique_nickname (srv κ) base))
    as [-> ->].
  assert (make_unique_nickname (srv κ) base = nth_name base (S k)) as ->.
  { pose proof (make_unique_nickname_cases (srv κ) base) as Hcases.
    unfold nth_name. destruct (nick_map (srv κ) !! base) eqn:Hbase.
    - assert (k ≠ 0) as Hk.
      { intros ->. assert (is_Some (nick_map (srv κ) !! base)) as Hs by eauto.
        apply IHn in Hs as (c & ? & _). lia. }
      rewrite decide_False by lia.
      destruct Hcases as (k' & Hk' & -> & Hfree & Hbelow).
      f_equal. destruct (decide (k' ≤ k)) as [Hle|Hgt].
      + assert (is_Some (nick_map (srv κ) !! cand base k')) as [? Hs].
        { apply IHn. exists k'. split; [lia|]. unfold nth_name.
          by rewrite decide_False by lia. }
        congruence.
      + destruct (decide (k' = S k)) as [->|Hne]; [done|].
        destruct (Hbelow (S k)) as [? Hs]; [lia|].
        assert (is_Some (nick_map (srv κ) !! cand base (S k))) as Hs' by eauto.
        apply IHn in Hs' as (c & Hc & Heq). unfold nth_name in Heq.
        destruct (decide (c = 1)).
        * by apply cand_ne_base in Heq.
        * apply cand_inj in Heq. lia.
    - rewrite Hcases. rewrite decide_True; [done|].
      destruct k as [|k]; [done|].
      assert (is_Some (nick_map (srv κ) !! base)) as [? Hs].
      { apply IHn. exists 1. split; [lia|]. done. }
      congruence. }
  split.
  - rewrite IHc, seq_S, fmap_app. apply dict_set_absent.
    destruct (Dict.get ((λ c, (c, nth_name base c)) <$> seq 1 k) (S k))
      eqn:Hget; [|done].
    assert (S k ∈ Dict.keys ((λ c, (c, nth_name base c)) <$> seq 1 k)) as Hin.
    { apply dict_get_keys. by eauto. }
    unfold Dict.keys in Hin. rewrite <-list_fmap_compose in Hin.
    apply list_elem_of_fmap in Hin as (c & Heq & Hc%elem_of_seq). simpl in Heq. lia.
  - intros x. rewrite lookup_insert_is_Some, IHn. split.
    + intros [<-|[_ (c & Hc & ->)]]; [exists (S k)|exists c]; (split; [lia|done]).
    + intros (c & Hc & ->). destruct (decide (c = S k)) as [->|]; [by left|].
      destruct (decide (nth_name base (S k) = nth_name base c)); [by left|].
      right. split; [done|]. exists c. split; [lia|done].
Qed.

(** From the empty registry, when [k] connections join one after the
    other, all asking for the same name, the first is given the name itself
    and the [c]-th is given the name followed by [c]: [alice], [alice2],
    [alice3], and so on, in the order of joining. *)
Theorem same_base_suffixes (base : string) (k : nat) :
  clients (srv (run start (expand (same_base base k))))
  = (λ c, (c, if decide (c = 1) then base else base +:+ pretty c)) <$> seq 1 k.
Proof. apply same_base_state. Qed.

End SuffixFacts.

(** ** Cleanup after shutdown *)


Lemma dict_keys_remove_subseteq {K V : Type} `{EqDecision K} (d : Dict.t K V) k k' :
  k' ∈ Dict.keys (Dict.remove d k) → k' ∈ Dict.keys d.
Proof.
  rewrite !dict_get_keys, dict_get_remove. by destruct (decide (k = k')); [intros []|].
Qed.


(** ** [clients] lists no connection twice *)

Lemma dict_set_nodup {K V : Type} `{EqDecision K} (d : Dict.t K V) k v :
  NoDup (Dict.keys d) → NoDup (Dict.keys (Dict.set d k v)).
Proof.
  induction d as [|[k0 v0] d IH]; simpl.
  - intros _. apply NoDup_singleton.
  - intros [Hk0 Hd]%NoDup_cons. destruct (decide (k0 = k)) as [->|Hne]; simpl.
    + by apply NoDup_cons.
    + apply NoDup_cons. split; [|by apply IH].
      intros Hin%dict_get_keys. rewrite dict_get_set, decide_False in Hin by done.
      by apply dict_get_keys in Hin.
Qed.

Lemma dict_remove_nodup {K V : Type} `{EqDecision K} (d : Dict.t K V) k :
  NoDup (Dict.keys d) → NoDup (Dict.keys (Dict.remove d k)).
Proof.
  induction d as [|[k0 v0] d IH]; simpl; [done|].
  intros [Hk0 Hd]%NoDup_cons. destruct (decide (k0 = k)); [by apply IH|]. simpl.
  apply NoDup_cons. split; [|by apply IH].
  by intros Hin%dict_keys_remove_subseteq.
Qed.

(** Handler runs keep [clients] free of repeated connections, the
    condition under which [shutdown_notifies] describes the drain. *)
Lemma handle_client_nodup σ s reads :
  NoDup (Dict.keys (clients σ)) → NoDup (Dict.keys (clients (handle_client σ s reads).1)).
Proof.
  intros Hnd. unfold handle_client.
  pose proof (handle_client_try_registry σ s reads) as Hreg. cbv zeta in Hreg.
  destruct (handle_client_try σ s reads) as [σ1 o]. simpl in Hreg.
  assert (NoDup (Dict.keys (clients σ1))) as Hnd1.
  { destruct Hreg as [[-> _]|(n & _ & _ & -> & _)]; [done|by apply dict_set_nodup]. }
  destruct o; cbn [fst]; try exact Hnd1;
    rewrite (proj1 (remove_client_registry σ1 s)); by apply dict_remove_nodup.
Qed.

(** ** Runs of the further properties *)

Module MoreRuns.
Import Schedule Sessions.

Lemma remove_client_twice_witness :
  remove_client (remove_client two_sessions 1) 1 = remove_client two_sessions 1
  ∧ remove_client two_sessions 7 = close two_sessions 7.
Proof.
  split; [exact (proj1 (remove_client_twice two_sessions 1))|].
  apply (proj2 (remove_client_twice two_sessions 7)). reflexivity.
Defined.

Lemma whisper_delivery_witness :
  handle_whisper two_sessions 1 "/w bob see you  at 9"
  = add_wire two_sessions
      [Delivered 2 ("(귓속말) alice> see you  at 9" +:+ Text.nl);
       Dropped 1 ("(귓속말 전송) alice -> bob: see you  at 9" +:+ Text.nl)].
Proof.
  apply (whisper_delivery two_sessions 1 2 "alice" "bob" "see you  at 9");
    [reflexivity|discriminate|discriminate|vm_compute; reflexivity
    |reflexivity|discriminate].
Defined.

Lemma shutdown_notifies_witness :
  wire (shutdown two_sessions)
  = [Dropped 1 (shutdown_notice +:+ Text.nl);
     Delivered 2 (shutdown_notice +:+ Text.nl)]
  ∧ clients (shutdown two_sessions) = clients two_sessions.
Proof.
  assert (NoDup (Dict.keys (clients two_sessions))) as Hnd.
  { simpl. apply NoDup_cons. split; [|apply NoDup_singleton].
    intros Hin%list_elem_of_In. simpl in Hin. lia. }
  rewrite (shutdown_notifies two_sessions Hnd). split; reflexivity.
Defined.

Lemma admin_console_quit_witness :
  admin_console init ["hello"; "/quit"] = init
  ∧ admin_console init (["hello"; "/quit"] ++ " /종료 " :: ["never read"])
    = shutdown (print init "[*] 서버 종료 명령 수신").
Proof.
  assert (Forall (λ c, Text.strip c ≠ quit_command) ["hello"; "/quit"]) as Hbefore.
  { repeat constructor; vm_compute; discriminate. }
  destruct (admin_console_quit init ["hello"; "/quit"] ["never read"] " /종료 " Hbefore)
    as [H1 H2].
  split; [exact H1|]. apply H2. vm_compute. reflexivity.
Defined.

Lemma session_loop_only_writes_witness :
  ∃ evs,
    (session_loop (close two_sessions 1) 2 [Recv "hello"; Recv "/w alice hi"]).1
    = add_wire (close two_sessions 1) evs
    ∧ ∀ data, Delivered 1 data ∉ evs.
Proof.
  destruct (session_loop_only_writes (close two_sessions 1) 2
              [Recv "hello"; Recv "/w alice hi"]) as (evs & Heq & Hclosed).
  exists evs. split; [exact Heq|]. intros data. apply Hclosed.
  simpl. apply elem_of_union_l, elem_of_singleton. reflexivity.
Defined.

Lemma finished_session_restores_registry_witness :
  clients (handle_client two_sessions 3 [Recv "bob"; Recv "hi"; Recv ""]).1
  = clients two_sessions
  ∧ make_unique_nickname
      (handle_client two_sessions 3 [Recv "bob"; Recv "hi"; Recv ""]).1 "bob"
    = make_unique_nickname two_sessions "bob".
Proof.
  destruct (finished_session_restores_registry two_sessions 3
              [Recv "bob"; Recv "hi"; Recv ""]) as (Hc & _ & _ & Hname).
  - reflexivity.
  - vm_compute. discriminate.
  - split; [exact Hc|exact (Hname "bob")].
Defined.

Lemma handler_keeps_bijection_witness :
  bijective (handle_client init 1 [Recv "alice"; Recv "hi"]).1.
Proof.
  apply (handler_keeps_bijection init 1 [Recv "alice"; Recv "hi"]).
  - split; intros ? ? H; vm_compute in H; discriminate.
  - intros ? ? H. vm_compute in H. discriminate.
  - reflexivity.
Defined.

Example same_base_three :
  clients (srv (run start (expand (same_base "alice" 3))))
  = [(1, "alice"); (2, "alice2"); (3, "alice3")].
Proof. vm_compute. reflexivity. Qed.


End MoreRuns.
